(** * usql metacmd: format-option scanner and parameter cursor

    A shallow embedding of [Option.ParseParams] and [Params.GetOptional]
    (package metacmd) together with the parts of Go's [strings] package they
    call.  Go strings are byte sequences, so they are modelled by [string]
    (a list of 8-bit [ascii] characters); the [Params] map is a
    [gmap string string] behind an [option], [None] being Go's nil map. *)

From Stdlib Require Import Ascii String List ZArith Lia.
From stdpp Require Import base option list strings gmap fin_maps.

Local Open Scope string_scope.
Local Open Scope list_scope.

(** ** Go's byte-string primitives *)

Module GoStrings.

(** [s[i]]; [None] stands for the out-of-range panic. *)
Definition at_index (s : string) (i : nat) : option ascii := String.get i s.

(** [len(s)]. *)
Definition len (s : string) : nat := String.length s.

(** Membership of a byte in an ASCII cutset. *)
Fixpoint in_cutset (c : ascii) (cutset : string) : bool :=
  match cutset with
  | EmptyString => false
  | String d cutset' => Ascii.eqb c d || in_cutset c cutset'
  end.

(** [strings.TrimLeft(s, cutset)]: all leading bytes of [s] that belong to
    [cutset] are removed. *)
Fixpoint TrimLeft (s cutset : string) : string :=
  match s with
  | EmptyString => EmptyString
  | String c s' => if in_cutset c cutset then TrimLeft s' cutset else s
  end.

(** [strings.TrimRight(s, cutset)]: all trailing bytes of [s] that belong
    to [cutset] are removed. *)
Fixpoint TrimRight (s cutset : string) : string :=
  match s with
  | EmptyString => EmptyString
  | String c s' =>
      match TrimRight s' cutset with
      | EmptyString => if in_cutset c cutset then EmptyString
                       else String c EmptyString
      | r => String c r
      end
  end.

(** [strings.Cut] for a one-byte separator: the text before and after the
    first occurrence of [sep], if there is one. *)
Fixpoint cut (s : string) (sep : ascii) : option (string * string) :=
  match s with
  | EmptyString => None
  | String c s' =>
      if Ascii.eqb c sep then Some (EmptyString, s')
      else match cut s' sep with
           | Some (before, after) => Some (String c before, after)
           | None => None
           end
  end.

(** [strings.SplitN(s, sep, n)] for a one-byte separator and [n >= 0]: at
    most [n] pieces, the last one holding the unsplit remainder. *)
Fixpoint SplitN (s : string) (sep : ascii) (n : nat) : list string :=
  match n with
  | 0 => []
  | 1 => [s]
  | S n' =>
      match cut s sep with
      | None => [s]
      | Some (before, after) => before :: SplitN after sep n'
      end
  end.

(** [strings.Join(elems, sep)]. *)
Definition Join (elems : list string) (sep : string) : string :=
  String.concat sep elems.

(** The byte [c] occurs in [s]. *)
Fixpoint contains (s : string) (c : ascii) : bool :=
  match s with
  | EmptyString => false
  | String d s' => Ascii.eqb d c || contains s' c
  end.

End GoStrings.

Import GoStrings.

(** ** Data model *)

(** [ExecType], an iota enumeration. *)
Inductive ExecType : Type :=
| ExecNone | ExecOnly | ExecPipe | ExecSet | ExecExec | ExecCrosstab | ExecWatch.

(** Go's [error] values seen by this package: the named error of package
    [text] and any other error, identified by its message. *)
Inductive error : Type :=
| ErrInvalidFormatOption
| ErrOther (msg : string).

(** [Option]: the parsed result options of a metacmd.  [Watch] is a
    [time.Duration], a signed 64-bit count of nanoseconds. *)
Record Option : Type := mkOption {
  Quit : bool;
  Exec : ExecType;
  Params : option (gmap string string);
  Crosstab : list string;
  Watch : Z
}.

(** Assignment to the field [opt.Params]. *)
Definition set_Params (opt : Option) (m : gmap string string) : Option :=
  {| Quit := Quit opt; Exec := Exec opt; Params := Some m;
     Crosstab := Crosstab opt; Watch := Watch opt |}.

(** The zero value of [Option]. *)
Definition zeroOption : Option :=
  {| Quit := false; Exec := ExecNone; Params := None;
     Crosstab := []; Watch := 0%Z |}.

(** ** [Option.ParseParams] *)

(** What one iteration of the [for i, param := range params] loop does to
    the map and to the control flow. *)
Inductive action : Type :=
| Skip                                          (* [continue] on an empty token *)
| SetDefault (value : string)                   (* [opt.Params[defaultKey] = ...; return nil] *)
| Fail (err : error)                            (* [return text.ErrInvalidFormatOption] *)
| Store (key value : string) (formatOptions : bool).
                                                (* [opt.Params[key] = value], next mode *)

(** The loop body.  [formatOptions] is the local flag, [param] the current
    token and [tail] the slice [params[i:]] (which starts with [param]). *)
Definition body (formatOptions : bool) (param : string) (tail : list string)
  : action :=
  if Nat.eqb (len param) 0 then Skip
  else
    (* if !formatOptions { if param[0] == '(' {...} else {...; return nil} } *)
    let entered : option bool :=
      if negb formatOptions then
        if bool_decide (at_index param 0 = Some "("%char) then Some true
        else None
      else Some formatOptions in
    match entered with
    | None => SetDefault (Join tail " ")
    | Some formatOptions =>
        let parts := SplitN param "="%char 2 in
        if Nat.eqb (length parts) 1 then Fail ErrInvalidFormatOption
        else
          let key := TrimLeft (nth 0 parts "") "(" in
          let value := TrimRight (nth 1 parts "") ")" in
          if formatOptions
             && bool_decide (at_index param (len param - 1) = Some ")"%char)
          then Store key value false
          else Store key value formatOptions
    end.

(** The loop itself, threading the map and the flag. *)
Fixpoint scan (defaultKey : string) (params : list string)
    (formatOptions : bool) (m : gmap string string)
  : gmap string string * option error :=
  match params with
  | [] => (m, None)
  | param :: rest =>
      match body formatOptions param (param :: rest) with
      | Skip => scan defaultKey rest formatOptions m
      | SetDefault value => (<[defaultKey := value]> m, None)
      | Fail err => (m, Some err)
      | Store key value formatOptions' =>
          scan defaultKey rest formatOptions' (<[key := value]> m)
      end
  end.

(** The map the scan writes to: [opt.Params], or a fresh map when it is nil. *)
Definition initParams (opt : Option) : gmap string string :=
  match Params opt with
  | None => ∅
  | Some m => m
  end.

(** [func (opt *Option) ParseParams(params []string, defaultKey string) error]:
    the updated [*opt] and the returned error ([None] is nil). *)
Definition ParseParams (opt : Option) (params : list string)
    (defaultKey : string) : Option * option error :=
  let '(m, err) := scan defaultKey params false (initParams opt) in
  (set_Params opt m, err).

(** ** The scanner's trace

    The iterations the loop actually executes on [params], each with its
    token and what it did.  The trace ends with the iteration that returns. *)
Fixpoint steps (params : list string) (formatOptions : bool)
  : list (string * action) :=
  match params with
  | [] => []
  | param :: rest =>
      let a := body formatOptions param (param :: rest) in
      (param, a) ::
        match a with
        | Skip => steps rest formatOptions
        | Store _ _ formatOptions' => steps rest formatOptions'
        | SetDefault _ | Fail _ => []
        end
  end.

(** The key/value pairs stored from parenthesized lists, in order. *)
Definition pairs_of (trace : list (string * action)) : list (string * string) :=
  omap (λ st, match snd st with
              | Store key value _ => Some (key, value)
              | _ => None
              end) trace.

(** The tokens handled in list mode: those that reach the [SplitN] call. *)
Definition list_tokens_of (trace : list (string * action)) : list string :=
  omap (λ st, match snd st with
              | Store _ _ _ | Fail _ => Some (fst st)
              | _ => None
              end) trace.

(** The free-form value assigned to the default key, if the call got there. *)
Definition default_of (trace : list (string * action)) : option string :=
  head (omap (λ st, match snd st with
                    | SetDefault value => Some value
                    | _ => None
                    end) trace).

Definition storedPairs (params : list string) : list (string * string) :=
  pairs_of (steps params false).

Definition listTokens (params : list string) : list string :=
  list_tokens_of (steps params false).

Definition defaultValue (params : list string) : option string :=
  default_of (steps params false).

(** Writing a list of pairs to a map in order, as successive assignments
    [m[key] = value] do. *)
Definition store_all (m : gmap string string) (kvs : list (string * string))
  : gmap string string :=
  foldl (λ acc kv, <[fst kv := snd kv]> acc) m kvs.

(** The effect of a trace on the map: the pairs in order, then the default
    key if the trace ends in the free-form branch. *)
Definition replay (defaultKey : string) (trace : list (string * action))
    (m : gmap string string) : gmap string string :=
  let m' := store_all m (pairs_of trace) in
  match default_of trace with
  | Some value => <[defaultKey := value]> m'
  | None => m'
  end.

(** The error a trace ends with. *)
Definition failure_of (trace : list (string * action)) : option error :=
  head (omap (λ st, match snd st with
                    | Fail err => Some err
                    | _ => None
                    end) trace).

(** The value of the local flag [formatOptions] once the iterations of a
    trace have run, starting from [formatOptions]. *)
Definition end_mode (trace : list (string * action)) (formatOptions : bool)
  : bool :=
  foldl (λ flag st, match snd st with
                    | Store _ _ formatOptions' => formatOptions'
                    | _ => flag
                    end) formatOptions trace.

Definition modeAfter (params : list string) : bool :=
  end_mode (steps params false) false.

(** The tokens that the loop does not skip. *)
Definition nonEmpty (params : list string) : list string :=
  filter (λ s : string, s ≠ "") params.

(** ** The stripping as the description words it

    "Strip a leading [(] from the key side and a trailing [)] from the value
    side": one parenthesis on each side, to be compared with what
    [TrimLeft] and [TrimRight] do. *)

Definition stripOneLeading (s : string) (c : ascii) : string :=
  match s with
  | String d s' => if Ascii.eqb d c then s' else s
  | EmptyString => EmptyString
  end.

Fixpoint stripOneTrailing (s : string) (c : ascii) : string :=
  match s with
  | EmptyString => EmptyString
  | String d EmptyString => if Ascii.eqb d c then EmptyString else s
  | String d s' => String d (stripOneTrailing s' c)
  end.

Definition describedPair (token : string) : option (string * string) :=
  match cut token "="%char with
  | Some (before, after) =>
      Some (stripOneLeading before "("%char, stripOneTrailing after ")"%char)
  | None => None
  end.

(** [n] copies of the byte [c]. *)
Fixpoint repeat_byte (n : nat) (c : ascii) : string :=
  match n with
  | 0 => EmptyString
  | S n' => String c (repeat_byte n' c)
  end.

(** ** [Params.GetOptional] *)

Module Cursor.
Section WithDecoder.

(** Collaborators from packages [os/user], [env] and [stmt], which this
    package only calls: the user, the variable table returned by
    [env.All()], the unquoting closure built by [env.Unquote], and the
    token cursor [*stmt.Params] with its [Get] method, which returns its
    three results together with the advanced cursor. *)
Context {UserT VarsT UnquoterT StmtParams : Type}.
Variable env_Unquote : UserT → bool → VarsT → UnquoterT.
Variable env_All : VarsT.
Variable stmt_Get :
  StmtParams → UnquoterT → (bool * string * option error) * StmtParams.

(** The one method of the [Handler] interface that the cursor calls. *)
Record Handler : Type := mkHandler { User : UserT }.

(** [Params] wraps metacmd parameters; its fields [Params] and [Option]
    are [Params_] and [Option_] here. *)
Record Params : Type := mkParams {
  Handler_ : Handler;
  Name : string;
  Params_ : StmtParams;
  Option_ : Option
}.

Definition set_cursor (p : Params) (c : StmtParams) : Params :=
  {| Handler_ := Handler_ p; Name := Name p; Params_ := c;
     Option_ := Option_ p |}.

(** [func (p *Params) Get(exec bool) (string, error)]. *)
Definition Get (p : Params) (exec : bool) : (string * option error) * Params :=
  let '((_, v, err), c) :=
    stmt_Get (Params_ p) (env_Unquote (User (Handler_ p)) exec env_All) in
  match err with
  | Some e => (("", Some e), set_cursor p c)
  | None => ((v, None), set_cursor p c)
  end.

(** [func (p *Params) GetOptional(exec bool) (bool, string, error)]. *)
Definition GetOptional (p : Params) (exec : bool)
  : (bool * string * option error) * Params :=
  let '((v, err), p') := Get p exec in
  match err with
  | Some e => ((false, "", Some e), p')
  | None =>
      if Nat.ltb 0 (len v) && bool_decide (at_index v 0 = Some "-"%char)
      then ((true, String.substring 1 (len v - 1) v, None), p')
      else ((false, v, None), p')
  end.

(** [func (p *Params) GetOK(exec bool) (bool, string, error)]. *)
Definition GetOK (p : Params) (exec : bool)
  : (bool * string * option error) * Params :=
  let '(r, c) :=
    stmt_Get (Params_ p) (env_Unquote (User (Handler_ p)) exec env_All) in
  (r, set_cursor p c).

End WithDecoder.
End Cursor.

(** A cursor over a plain list of tokens whose decoder returns every token
    as it is and fails on the token ["'"] (an unterminated quote); it stands
    for [*stmt.Params] in the examples. *)
Definition listCursorGet (tokens : list string) (_ : unit)
  : (bool * string * option error) * list string :=
  match tokens with
  | [] => ((false, "", None), [])
  | t :: tokens' =>
      if String.eqb t "'" then ((false, "", Some (ErrOther "unterminated quoted string")), tokens')
      else ((true, t, None), tokens')
  end.

Definition listCursor (tokens : list string) : Cursor.Params :=
  Cursor.mkParams (Cursor.mkHandler tt) "g" tokens zeroOption.

Definition listGetOptional (tokens : list string) (exec : bool)
  : (bool * string * option error) * Cursor.Params :=
  Cursor.GetOptional (λ _ _ _, tt) tt listCursorGet (listCursor tokens) exec.

(** * Properties *)

(** ** Byte-string lemmas *)

Section GoStringFacts.

Lemma len_0 (s : string) : Nat.eqb (len s) 0 = true ↔ s = "".
Proof. destruct s; simpl; split; intros; congruence. Qed.

Lemma at_index_0 (c : ascii) (s : string) : at_index (String c s) 0 = Some c.
Proof. reflexivity. Qed.

Lemma contains_app (l r : string) (c : ascii) :
  contains (l +:+ r) c = contains l c || contains r c.
Proof.
  induction l as [|d l IH]; simpl; [done|].
  by rewrite IH, orb_assoc.
Qed.

(** [cut] finds the first occurrence of the separator. *)
Lemma cut_Some (s : string) (sep : ascii) (l r : string) :
  cut s sep = Some (l, r) ↔ s = l +:+ String sep r ∧ contains l sep = false.
Proof.
  revert l; induction s as [|c s IH]; intros l; simpl.
  - split; [done|]. intros [H _]. destruct l; discriminate.
  - destruct (Ascii.eqb c sep) eqn:E.
    + apply Ascii.eqb_eq in E as ->. split.
      * intros [= <- <-]. done.
      * intros [H Hl]. destruct l as [|d l]; simpl in *.
        { by injection H as ->. }
        injection H as -> _. rewrite Ascii.eqb_refl in Hl. done.
    + destruct (cut s sep) as [[b a]|] eqn:Hc.
      * split.
        -- intros [= <- <-]. simpl. rewrite E. simpl.
           destruct (IH b) as [IH1 _]. destruct (IH1 eq_refl) as [-> ?]. done.
        -- intros [H Hl]. destruct l as [|d l]; simpl in *.
           { injection H as -> _. rewrite Ascii.eqb_refl in E. done. }
           injection H as -> Hs. apply orb_false_iff in Hl as [_ Hl].
           destruct (IH l) as [_ IH2]. specialize (IH2 (conj Hs Hl)).
           by injection IH2 as -> ->.
      * split; [done|]. intros [H Hl]. destruct l as [|d l]; simpl in *.
        { injection H as -> _. rewrite Ascii.eqb_refl in E. done. }
        injection H as -> Hs. apply orb_false_iff in Hl as [_ Hl].
        destruct (IH l) as [_ IH2]. specialize (IH2 (conj Hs Hl)). done.
Qed.

Lemma cut_None (s : string) (sep : ascii) :
  cut s sep = None ↔ contains s sep = false.
Proof.
  induction s as [|c s IH]; simpl; [done|].
  destruct (Ascii.eqb c sep); simpl; [done|].
  destruct (cut s sep) as [[b a]|]; [|done].
  split; [done|]. intros H. apply IH in H. done.
Qed.

(** [SplitN(s, sep, 2)] has one piece exactly when [sep] is absent. *)
Lemma SplitN_2 (s : string) (sep : ascii) :
  SplitN s sep 2 = match cut s sep with
                   | None => [s]
                   | Some (before, after) => [before; after]
                   end.
Proof. simpl. by destruct (cut s sep) as [[? ?]|]. Qed.

Lemma substring_all (s : string) : String.substring 0 (String.length s) s = s.
Proof. induction s as [|c s IH]; simpl; [done|]. by rewrite IH. Qed.

End GoStringFacts.

(** ** The model on sample inputs *)

Example SplitN_sample1 : SplitN "a=b=c" "="%char 2 = ["a"; "b=c"].
Proof. reflexivity. Qed.

Example SplitN_sample2 : SplitN "(x)" "="%char 2 = ["(x)"].
Proof. reflexivity. Qed.

Example SplitN_sample3 : SplitN "=" "="%char 2 = [""; ""].
Proof. reflexivity. Qed.

Example TrimLeft_sample : TrimLeft "((a(" "(" = "a(".
Proof. reflexivity. Qed.

Example TrimRight_sample : TrimRight "1)2))" ")" = "1)2".
Proof. reflexivity. Qed.

Example Join_sample : Join ["a"; ""; "b"] " " = "a  b".
Proof. reflexivity. Qed.

Example body_sample1 : body false "(a=1" ["(a=1"; "b=2)"] = Store "a" "1" true.
Proof. reflexivity. Qed.

Example body_sample2 : body true "b=2)" ["b=2)"] = Store "b" "2" false.
Proof. reflexivity. Qed.

Example ParseParams_sample1 :
  ParseParams zeroOption ["foo=bar"] "name"
  = (set_Params zeroOption (<["name" := "foo=bar"]> ∅), None).
Proof. reflexivity. Qed.

Example ParseParams_sample2 :
  ParseParams zeroOption [] "name" = (set_Params zeroOption ∅, None).
Proof. reflexivity. Qed.

Example ParseParams_sample3 :
  ParseParams zeroOption ["(a=1)"; "x"; "y"] "a"
  = (set_Params zeroOption (<["a" := "x y"]> (<["a" := "1"]> ∅)), None).
Proof. reflexivity. Qed.

(** ** The loop body, branch by branch *)

Section Body.

Arguments body : simpl never.

Lemma body_empty (formatOptions : bool) (tail : list string) :
  body formatOptions "" tail = Skip.
Proof. reflexivity. Qed.

Lemma body_Skip (formatOptions : bool) (param : string) (tail : list string) :
  body formatOptions param tail = Skip ↔ param = "".
Proof.
  split; [|intros ->; apply body_empty].
  destruct param as [|c s]; [done|]. unfold body.
  cbn [len String.length Nat.eqb].
  destruct (if negb formatOptions then _ else _); [|done].
  destruct (Nat.eqb _ 1); [done|]. by destruct (_ && _).
Qed.

(** Outside a list, a non-empty token without a leading parenthesis takes
    the free-form branch. *)
Lemma body_free_form (param : string) (tail : list string) :
  param ≠ "" → at_index param 0 ≠ Some "("%char →
  body false param tail = SetDefault (Join tail " ").
Proof.
  intros Hne H0. unfold body.
  destruct (Nat.eqb (len param) 0) eqn:E; [by apply len_0 in E|].
  simpl. by rewrite bool_decide_eq_false_2.
Qed.

(** A non-empty token met inside a list, or opening one, reaches the
    split. *)
Lemma body_list (formatOptions : bool) (param : string) (tail : list string) :
  param ≠ "" → formatOptions = true ∨ at_index param 0 = Some "("%char →
  body formatOptions param tail =
    match cut param "="%char with
    | None => Fail ErrInvalidFormatOption
    | Some (before, after) =>
        Store (TrimLeft before "(") (TrimRight after ")")
          (negb (bool_decide (at_index param (len param - 1) = Some ")"%char)))
    end.
Proof.
  intros Hne Hin. unfold body.
  destruct (Nat.eqb (len param) 0) eqn:E; [by apply len_0 in E|].
  assert ((if negb formatOptions
           then if bool_decide (at_index param 0 = Some "("%char)
                then Some true else None
           else Some formatOptions) = Some true) as ->.
  { destruct formatOptions; simpl; [done|].
    destruct Hin as [?|Hin]; [done|]. by rewrite bool_decide_eq_true_2. }
  rewrite SplitN_2. destruct (cut param "="%char) as [[b a]|]; simpl; [|done].
  by case_bool_decide.
Qed.

(** The three cases cover every token. *)
Lemma body_cases (formatOptions : bool) (param : string) :
  param = ""
  ∨ (param ≠ "" ∧ formatOptions = false ∧ at_index param 0 ≠ Some "("%char)
  ∨ (param ≠ "" ∧ (formatOptions = true ∨ at_index param 0 = Some "("%char)).
Proof.
  destruct (decide (param = "")); [by left|right].
  destruct formatOptions; [right; auto|].
  destruct (decide (at_index param 0 = Some "("%char)); [right|left]; auto.
Qed.

End Body.

(** ** The scan and its trace *)

Section Trace.

Variable defaultKey : string.

(** The scan does what its trace says. *)
Lemma scan_steps (params : list string) (formatOptions : bool)
    (m : gmap string string) :
  scan defaultKey params formatOptions m =
    (replay defaultKey (steps params formatOptions) m,
     failure_of (steps params formatOptions)).
Proof.
  revert formatOptions m.
  induction params as [|param rest IH]; intros fo m; [done|].
  cbn [scan steps].
  destruct (body fo param (param :: rest)) as [|v|e|k v fo'] eqn:Hb.
  - rewrite IH. done.
  - done.
  - done.
  - rewrite IH. done.
Qed.

(** Empty tokens in front are skipped without any effect. *)
Lemma scan_skip_empty (pre params : list string) (formatOptions : bool)
    (m : gmap string string) :
  Forall (λ s, s = "") pre →
  scan defaultKey (pre ++ params) formatOptions m
  = scan defaultKey params formatOptions m.
Proof.
  induction 1 as [|s pre -> _ IH]; [done|].
  cbn [app scan]. by rewrite body_empty.
Qed.

End Trace.

Lemma list_tokens_of_cons (st : string * action) (trace : list (string * action)) :
  list_tokens_of (st :: trace)
  = match snd st with
    | Store _ _ _ | Fail _ => [fst st]
    | _ => []
    end ++ list_tokens_of trace.
Proof. by destruct st as [t []]. Qed.

Lemma steps_skip_empty (pre params : list string) (formatOptions : bool) :
  Forall (λ s, s = "") pre →
  pairs_of (steps (pre ++ params) formatOptions)
  = pairs_of (steps params formatOptions)
  ∧ list_tokens_of (steps (pre ++ params) formatOptions)
    = list_tokens_of (steps params formatOptions)
  ∧ default_of (steps (pre ++ params) formatOptions)
    = default_of (steps params formatOptions).
Proof.
  induction 1 as [|s pre -> _ IH]; [done|].
  cbn [app steps]. rewrite body_empty. exact IH.
Qed.

(** ** The claims about [ParseParams] *)

(** C1: when the first non-empty token does not begin with an opening
    parenthesis, [ParseParams] returns no error and its only effect on the
    map is [Params[defaultKey] = ] that token and all the tokens after it,
    joined with single spaces; no token is handled in list mode and no
    key/value pair is stored. *)
Theorem C1_free_form (opt : Option) (pre : list string) (t : string)
    (rest : list string) (defaultKey : string) :
  Forall (λ s, s = "") pre → t ≠ "" → at_index t 0 ≠ Some "("%char →
  ParseParams opt (pre ++ t :: rest) defaultKey
  = (set_Params opt (<[defaultKey := Join (t :: rest) " "]> (initParams opt)),
     None)
  ∧ storedPairs (pre ++ t :: rest) = []
  ∧ listTokens (pre ++ t :: rest) = [].
Proof.
  intros Hpre Hne H0. split.
  - unfold ParseParams. rewrite scan_skip_empty by done.
    cbn [scan]. by rewrite body_free_form.
  - unfold storedPairs, listTokens.
    destruct (steps_skip_empty pre (t :: rest) false Hpre) as (-> & -> & _).
    cbn [steps]. by rewrite body_free_form.
Qed.

Lemma C1_free_form_witness :
  ParseParams zeroOption [""; "foo=bar"; ""; "baz"] "name"
  = (set_Params zeroOption (<["name" := "foo=bar  baz"]> ∅), None)
  ∧ storedPairs [""; "foo=bar"; ""; "baz"] = []
  ∧ listTokens [""; "foo=bar"; ""; "baz"] = [].
Proof.
  apply (C1_free_form zeroOption [""] "foo=bar" [""; "baz"] "name").
  - repeat constructor.
  - discriminate.
  - discriminate.
Defined.

(** C2 (as stated, refuted): on the single token ["()"] the call does not
    succeed and no empty-string key appears. *)
Lemma C2_counterexample :
  ¬ (snd (ParseParams zeroOption ["()"] "name") = None
     ∧ ∃ m, Params (fst (ParseParams zeroOption ["()"] "name")) = Some m
            ∧ is_Some (m !! "")).
Proof. intros [H _]. vm_compute in H. discriminate H. Qed.

(** C2 (amended): the token ["()"] opens a list but has no ['='], so the call
    fails with [ErrInvalidFormatOption] and writes nothing; the degenerate
    empty-string key is produced by the token ["(=)"], which opens and closes
    the list in one step. *)
Theorem C2_empty_parens (opt : Option) (defaultKey : string) :
  ParseParams opt ["()"] defaultKey
  = (set_Params opt (initParams opt), Some ErrInvalidFormatOption)
  ∧ ParseParams opt ["(=)"] defaultKey
    = (set_Params opt (<["" := ""]> (initParams opt)), None)
  ∧ steps ["(=)"] false = [("(=)", Store "" "" false)].
Proof. repeat split. Qed.

(** Inside a list every stored token has a ['='], and the scan fails
    exactly at the first token that has none. *)
Lemma failure_steps (params : list string) (formatOptions : bool) :
  (failure_of (steps params formatOptions) = None
   ∧ ∀ t, t ∈ list_tokens_of (steps params formatOptions) →
          contains t "="%char = true)
  ∨ (failure_of (steps params formatOptions) = Some ErrInvalidFormatOption
     ∧ ∃ t, t ∈ list_tokens_of (steps params formatOptions)
            ∧ contains t "="%char = false).
Proof.
  revert formatOptions.
  induction params as [|param rest IH]; intros fo.
  { left. split; [done|]. intros t Ht. by apply elem_of_nil in Ht. }
  cbn [steps].
  destruct (body_cases fo param) as [->|[(Hne & -> & H0)|(Hne & Hin)]].
  - rewrite body_empty. exact (IH fo).
  - rewrite body_free_form by done. left. split; [done|].
    intros t Ht. by apply elem_of_nil in Ht.
  - rewrite body_list by done.
    destruct (cut param "="%char) as [[b a]|] eqn:Hc.
    + set (fo' := negb _).
      assert (contains param "="%char = true) as Hp.
      { apply cut_Some in Hc as [-> _]. rewrite contains_app. simpl.
        by rewrite orb_true_r. }
      destruct (IH fo') as [[Hf Hall]|[Hf (t & Ht & Hno)]].
      * left. split; [exact Hf|]. intros t Ht.
        apply elem_of_cons in Ht as [->|Ht]; [done|]. by apply Hall.
      * right. split; [exact Hf|]. exists t. split; [|done].
        apply elem_of_cons. by right.
    + right. split; [done|]. exists param. split.
      * apply elem_of_cons. by left.
      * by apply cut_None.
Qed.

(** C3: [ParseParams] returns an error exactly when one of the tokens it
    handles in list mode (the one opening the list included) has no ['='];
    the error is then [ErrInvalidFormatOption] and never anything else; the
    tokens [["(x)"]] fail that way. *)
Theorem C3_error_iff (opt : Option) (params : list string) (defaultKey : string) :
  (snd (ParseParams opt params defaultKey) ≠ None
   ↔ ∃ t, t ∈ listTokens params ∧ contains t "="%char = false)
  ∧ (snd (ParseParams opt params defaultKey) = None
     ∨ snd (ParseParams opt params defaultKey) = Some ErrInvalidFormatOption)
  ∧ snd (ParseParams opt ["(x)"] defaultKey) = Some ErrInvalidFormatOption.
Proof.
  unfold ParseParams, listTokens. rewrite scan_steps. cbn [snd].
  destruct (failure_steps params false) as [[Hf Hall]|[Hf Hex]];
    rewrite Hf; repeat split; auto; try done.
  intros (t & Ht & Hno). apply Hall in Ht. congruence.
Qed.

(** C7: the tokens [["(a=1"; "b=2)"]] are accepted and store exactly the
    pairs a=1 and b=2; the free-form branch is not taken, so nothing is
    stored under a default key that differs from both. *)
Theorem C7_two_pairs (opt : Option) (defaultKey : string) :
  ParseParams opt ["(a=1"; "b=2)"] defaultKey
  = (set_Params opt (<["b" := "2"]> (<["a" := "1"]> (initParams opt))), None)
  ∧ Params (fst (ParseParams zeroOption ["(a=1"; "b=2)"] defaultKey))
    = Some {["a" := "1"; "b" := "2"]}
  ∧ defaultValue ["(a=1"; "b=2)"] = None
  ∧ (defaultKey ≠ "a" → defaultKey ≠ "b" →
     initParams (fst (ParseParams zeroOption ["(a=1"; "b=2)"] defaultKey))
       !! defaultKey = None).
Proof.
  assert (ParseParams opt ["(a=1"; "b=2)"] defaultKey
          = (set_Params opt (<["b" := "2"]> (<["a" := "1"]> (initParams opt))),
             None)) as H1 by reflexivity.
  assert (Params (fst (ParseParams zeroOption ["(a=1"; "b=2)"] defaultKey))
          = Some {["a" := "1"; "b" := "2"]}) as H2.
  { change (Some (<["b" := "2"]> (<["a" := "1"]> (∅ : gmap string string)))
            = Some {["a" := "1"; "b" := "2"]}).
    reflexivity. }
  split; [exact H1|]. split; [exact H2|]. split; [reflexivity|].
  intros Ha Hb. unfold initParams. rewrite H2.
  rewrite lookup_insert_ne by done. by rewrite lookup_singleton_ne.
Qed.

Lemma C7_two_pairs_witness :
  initParams (fst (ParseParams zeroOption ["(a=1"; "b=2)"] "name")) !! "name"
  = None.
Proof.
  apply (C7_two_pairs zeroOption "name"); discriminate.
Defined.

(** ** Successive stores *)

Lemma store_all_app (m : gmap string string) (kvs kvs' : list (string * string)) :
  store_all m (kvs ++ kvs') = store_all (store_all m kvs) kvs'.
Proof. apply foldl_app. Qed.

(** A key that no pair mentions keeps its entry. *)
Lemma store_all_other (m : gmap string string) (kvs : list (string * string))
    (k : string) :
  k ∉ kvs.*1 → store_all m kvs !! k = m !! k.
Proof.
  revert m. induction kvs as [|[k' v'] kvs IH]; intros m Hk; [done|].
  cbn in Hk. apply not_elem_of_cons in Hk as [Hne Hk].
  cbn. change (store_all (<[k' := v']> m) kvs !! k = m !! k).
  rewrite IH by done. by rewrite lookup_insert_ne.
Qed.

(** Last write wins: a key holds the value of the last pair that names it. *)
Lemma store_all_last (m : gmap string string) (kvs kvs' : list (string * string))
    (k v : string) :
  k ∉ kvs'.*1 → store_all m (kvs ++ (k, v) :: kvs') !! k = Some v.
Proof.
  intros Hk. rewrite store_all_app. cbn.
  change (store_all (<[k := v]> (store_all m kvs)) kvs' !! k = Some v).
  rewrite store_all_other by done. by rewrite lookup_insert_eq.
Qed.

(** Every key that was stored is present afterwards, with a value that some
    pair gave it. *)
Lemma store_all_present (m : gmap string string) (kvs : list (string * string))
    (k v : string) :
  (k, v) ∈ kvs → ∃ v', store_all m kvs !! k = Some v' ∧ (k, v') ∈ kvs.
Proof.
  revert m. induction kvs as [|[k0 v0] kvs IH] using rev_ind; intros m Hin.
  { by apply elem_of_nil in Hin. }
  rewrite store_all_app. cbn.
  destruct (decide (k = k0)) as [->|Hne].
  - exists v0. rewrite lookup_insert_eq. split; [done|].
    apply elem_of_app. right. apply list_elem_of_singleton. done.
  - rewrite lookup_insert_ne by done.
    apply elem_of_app in Hin as [Hin|Hin].
    + destruct (IH m Hin) as (v' & Hv' & Hin'). exists v'. split; [done|].
      apply elem_of_app. by left.
    + apply list_elem_of_singleton in Hin. congruence.
Qed.

(** C4 (as stated, refuted): with the tokens [["(a=1)"; "x"]] and the default
    key ["a"] the call succeeds and sets the default key, yet ["a"] is among
    the keys stored from the parenthesized list. *)
Lemma C4_counterexample :
  ¬ (snd (ParseParams zeroOption ["(a=1)"; "x"] "a") = None →
     is_Some (defaultValue ["(a=1)"; "x"]) →
     "a" ∉ (storedPairs ["(a=1)"; "x"]).*1).
Proof.
  intros H. apply H.
  - reflexivity.
  - by exists "x".
  - change ("a" ∈ ["a"]). apply list_elem_of_singleton. done.
Qed.

(** C4 (amended): after [ParseParams] returns, the stored keys are pairwise
    distinct; if the call set the default key, [Params[defaultKey]] holds the
    free-form value, written last and so replacing a list pair of the same
    key, and every other key holds what the list pairs (applied in order to
    the map present at entry) left there; if the call did not set the default
    key, the map is exactly the result of those stores. *)
Theorem C4_keys (opt : Option) (params : list string) (defaultKey : string) :
  ∃ m, Params (fst (ParseParams opt params defaultKey)) = Some m
       ∧ NoDup (map_to_list m).*1
       ∧ (∀ value, defaultValue params = Some value →
            m !! defaultKey = Some value
            ∧ ∀ k, k ≠ defaultKey →
                   m !! k = store_all (initParams opt) (storedPairs params) !! k)
       ∧ (defaultValue params = None →
            m = store_all (initParams opt) (storedPairs params)).
Proof.
  unfold ParseParams. rewrite scan_steps. cbn [fst set_Params Params].
  eexists. split; [reflexivity|]. split; [apply NoDup_fst_map_to_list|].
  unfold replay, defaultValue, storedPairs. split.
  - intros value ->. split; [by rewrite lookup_insert_eq|].
    intros k Hk. by rewrite lookup_insert_ne.
  - by intros ->.
Qed.

Lemma C4_keys_witness :
  ∃ m, Params (fst (ParseParams zeroOption ["(a=1)"; "x"] "a")) = Some m
       ∧ m !! "a" = Some "x".
Proof.
  destruct (C4_keys zeroOption ["(a=1)"; "x"] "a") as (m & Hm & _ & Hd & _).
  exists m. split; [exact Hm|]. apply (Hd "x"). reflexivity.
Defined.

(** C5: a token handled in list mode whose last character is a closing
    parenthesis ends the list: the tokens after it are scanned from the
    initial, not-in-a-list state.  If the next non-empty token opens with a
    parenthesis it is handled in list mode again (so [["(a=1)"; "(b=2)"]]
    stores both pairs); if it does not, it and all the tokens after it are
    joined with single spaces under the default key and the call returns. *)
Theorem C5_list_close (defaultKey : string) (formatOptions : bool) (t : string)
    (m : gmap string string) :
  t ≠ "" → formatOptions = true ∨ at_index t 0 = Some "("%char →
  contains t "="%char = true →
  at_index t (len t - 1) = Some ")"%char →
  ∃ key value,
    (∀ rest, body formatOptions t (t :: rest) = Store key value false
             ∧ scan defaultKey (t :: rest) formatOptions m
               = scan defaultKey rest false (<[key := value]> m))
    ∧ (∀ pre u rest, Forall (λ s, s = "") pre → at_index u 0 = Some "("%char →
         scan defaultKey (t :: pre ++ u :: rest) formatOptions m
         = scan defaultKey (u :: rest) false (<[key := value]> m)
         ∧ u ∈ list_tokens_of (steps (t :: pre ++ u :: rest) formatOptions))
    ∧ (∀ pre u rest, Forall (λ s, s = "") pre →
         u ≠ "" → at_index u 0 ≠ Some "("%char →
         scan defaultKey (t :: pre ++ u :: rest) formatOptions m
         = (<[defaultKey := Join (u :: rest) " "]> (<[key := value]> m), None))
    ∧ ParseParams zeroOption ["(a=1)"; "(b=2)"] defaultKey
      = (set_Params zeroOption (<["b" := "2"]> (<["a" := "1"]> ∅)), None).
Proof.
  intros Hne Hin Heq Hlast.
  destruct (cut t "="%char) as [[before after]|] eqn:Hc;
    [|apply cut_None in Hc; congruence].
  assert (∀ tail, body formatOptions t tail
                  = Store (TrimLeft before "(") (TrimRight after ")") false)
    as Hb.
  { intros tail. rewrite body_list, Hc by done.
    by rewrite bool_decide_eq_true_2. }
  exists (TrimLeft before "("), (TrimRight after ")").
  split; [|split; [|split]].
  - intros rest. split; [apply Hb|]. cbn [scan]. by rewrite Hb.
  - intros pre u rest Hpre Hu.
    assert (u ≠ "") as Hune by (intros ->; discriminate).
    split.
    + cbn [scan]. rewrite Hb. by rewrite scan_skip_empty.
    + cbn [steps]. rewrite Hb, list_tokens_of_cons. cbn [snd fst app].
      apply elem_of_cons. right.
      destruct (steps_skip_empty pre (u :: rest) false Hpre) as (_ & -> & _).
      cbn [steps]. rewrite body_list by auto.
      destruct (cut u "="%char) as [[? ?]|]; rewrite list_tokens_of_cons;
        cbn [snd fst app]; apply elem_of_cons; by left.
  - intros pre u rest Hpre Hune Hu.
    cbn [scan]. rewrite Hb. rewrite scan_skip_empty by done.
    cbn [scan]. by rewrite body_free_form.
  - reflexivity.
Qed.

Lemma C5_list_close_witness :
  ∃ key value,
    (∀ rest, body false "(a=1)" ("(a=1)" :: rest) = Store key value false
             ∧ scan "name" ("(a=1)" :: rest) false ∅
               = scan "name" rest false (<[key := value]> ∅))
    ∧ (∀ pre u rest, Forall (λ s, s = "") pre → at_index u 0 = Some "("%char →
         scan "name" ("(a=1)" :: pre ++ u :: rest) false ∅
         = scan "name" (u :: rest) false (<[key := value]> ∅)
         ∧ u ∈ list_tokens_of (steps ("(a=1)" :: pre ++ u :: rest) false))
    ∧ (∀ pre u rest, Forall (λ s, s = "") pre →
         u ≠ "" → at_index u 0 ≠ Some "("%char →
         scan "name" ("(a=1)" :: pre ++ u :: rest) false ∅
         = (<["name" := Join (u :: rest) " "]> (<[key := value]> ∅), None))
    ∧ ParseParams zeroOption ["(a=1)"; "(b=2)"] "name"
      = (set_Params zeroOption (<["b" := "2"]> (<["a" := "1"]> ∅)), None).
Proof.
  apply (C5_list_close "name" false "(a=1)" ∅).
  - discriminate.
  - right. reflexivity.
  - reflexivity.
  - reflexivity.
Defined.

(** ** What [TrimLeft] and [TrimRight] remove *)

(** [TrimLeft] removes a whole run of leading [c]s, leaving none in front. *)
Lemma TrimLeft_run (s : string) (c : ascii) :
  ∃ n, s = repeat_byte n c +:+ TrimLeft s (String c "")
       ∧ at_index (TrimLeft s (String c "")) 0 ≠ Some c.
Proof.
  induction s as [|d s (n & Hs & H0)]; [by exists 0|].
  cbn [TrimLeft in_cutset]. rewrite orb_false_r.
  destruct (Ascii.eqb d c) eqn:E.
  - apply Ascii.eqb_eq in E as ->. exists (S n). split; [|done].
    change (String c s
            = String c (repeat_byte n c +:+ TrimLeft s (String c ""))).
    by f_equal.
  - exists 0. split; [done|]. cbn. intros [= ->].
    by rewrite Ascii.eqb_refl in E.
Qed.

(** [TrimRight] removes a whole run of trailing [c]s, leaving none behind. *)
Lemma TrimRight_run (s : string) (c : ascii) :
  ∃ n, s = TrimRight s (String c "") +:+ repeat_byte n c
       ∧ (TrimRight s (String c "") = ""
          ∨ at_index (TrimRight s (String c ""))
              (len (TrimRight s (String c "")) - 1) ≠ Some c).
Proof.
  induction s as [|d s (n & Hs & Hlast)]; [exists 0; auto|].
  cbn [TrimRight in_cutset]. rewrite orb_false_r.
  destruct (TrimRight s (String c "")) as [|e r] eqn:Hr.
  - change (s = repeat_byte n c) in Hs. destruct (Ascii.eqb d c) eqn:E.
    + apply Ascii.eqb_eq in E as ->. exists (S n). split; [|by left].
      change (String c s = String c (repeat_byte n c)). by f_equal.
    + exists n. split.
      * change (String d s = String d (repeat_byte n c)). by f_equal.
      * right. cbn. intros [= ->]. by rewrite Ascii.eqb_refl in E.
  - exists n. split.
    + change (String d s = String d (String e r +:+ repeat_byte n c)).
      by f_equal.
    + right. destruct Hlast as [?|Hlast]; [done|].
      cbn in *. by rewrite Nat.sub_0_r in Hlast.
Qed.

(** C6 (as stated, refuted): for the token ["((a=1))"] the pair obtained by
    stripping one leading and one trailing parenthesis is not what the map
    holds. *)
Lemma C6_counterexample :
  ¬ (∃ m, Params (fst (ParseParams zeroOption ["((a=1))"] "name")) = Some m
          ∧ ∀ k v, describedPair "((a=1))" = Some (k, v) → m !! k = Some v).
Proof.
  intros (m & Hm & H). specialize (H "(a" "1)" eq_refl).
  change (Some (<["a" := "1"]> (∅ : gmap string string)) = Some m) in Hm.
  injection Hm as <-. rewrite lookup_insert_ne in H by done.
  by rewrite lookup_empty in H.
Qed.

(** C6 (amended): a token handled in list mode is split at its first ['='];
    the stored key is the left part without its whole run of leading opening
    parentheses and the stored value is the right part without its whole run
    of trailing closing parentheses; a key holds the value of the last pair
    that names it, so [["(a=1"; "a=2)"]] leaves a=2. *)
Theorem C6_split_store (defaultKey : string) (formatOptions : bool)
    (t before after : string) (rest : list string) (m : gmap string string) :
  t = before +:+ String "="%char after → contains before "="%char = false →
  formatOptions = true ∨ at_index t 0 = Some "("%char →
  (∃ formatOptions',
      body formatOptions t (t :: rest)
      = Store (TrimLeft before "(") (TrimRight after ")") formatOptions'
      ∧ scan defaultKey (t :: rest) formatOptions m
        = scan defaultKey rest formatOptions'
            (<[TrimLeft before "(" := TrimRight after ")"]> m))
  ∧ (∃ n, before = repeat_byte n "("%char +:+ TrimLeft before "("
          ∧ at_index (TrimLeft before "(") 0 ≠ Some "("%char)
  ∧ (∃ n, after = TrimRight after ")" +:+ repeat_byte n ")"%char
          ∧ (TrimRight after ")" = ""
             ∨ at_index (TrimRight after ")") (len (TrimRight after ")") - 1)
               ≠ Some ")"%char))
  ∧ (∀ opt params kvs kvs' k v,
       storedPairs params = kvs ++ (k, v) :: kvs' → k ∉ kvs'.*1 →
       defaultValue params = None ∨ k ≠ defaultKey →
       ∃ m', Params (fst (ParseParams opt params defaultKey)) = Some m'
             ∧ m' !! k = Some v)
  ∧ ParseParams zeroOption ["(a=1"; "a=2)"] defaultKey
    = (set_Params zeroOption {["a" := "2"]}, None).
Proof.
  intros Ht Hb Hin.
  assert (t ≠ "") as Hne by (subst t; by destruct before).
  assert (cut t "="%char = Some (before, after)) as Hc by by apply cut_Some.
  split; [|split; [|split; [|split]]].
  - eexists. rewrite body_list, Hc by done. split; [reflexivity|].
    cbn [scan]. by rewrite body_list, Hc by done.
  - apply TrimLeft_run.
  - apply TrimRight_run.
  - intros opt params kvs kvs' k v Hkvs Hk Hd.
    unfold ParseParams. rewrite scan_steps. cbn [fst set_Params Params].
    eexists. split; [reflexivity|]. unfold replay.
    fold (storedPairs params). fold (defaultValue params). rewrite Hkvs.
    destruct Hd as [->|Hd].
    + by apply store_all_last.
    + destruct (defaultValue params); [rewrite lookup_insert_ne by done|];
        by apply store_all_last.
  - change (ParseParams zeroOption ["(a=1"; "a=2)"] defaultKey) with
      (set_Params zeroOption (<["a" := "2"]> (<["a" := "1"]> ∅)),
       @None error).
    by rewrite insert_insert_eq, insert_empty.
Qed.

Lemma C6_split_store_witness :
  ∃ formatOptions',
    body false "((a=1))" ["((a=1))"] = Store "a" "1" formatOptions'
    ∧ scan "name" ["((a=1))"] false ∅
      = scan "name" [] formatOptions' (<["a" := "1"]> ∅).
Proof.
  apply (C6_split_store "name" false "((a=1))" "((a" "1))" [] ∅).
  - reflexivity.
  - reflexivity.
  - right. reflexivity.
Defined.

(** ** Traces that end in a failure *)

Lemma pairs_of_cons (st : string * action) (trace : list (string * action)) :
  pairs_of (st :: trace)
  = match snd st with
    | Store key value _ => [(key, value)]
    | _ => []
    end ++ pairs_of trace.
Proof. by destruct st as [t []]. Qed.

Lemma default_of_cons (st : string * action) (trace : list (string * action)) :
  default_of (st :: trace)
  = match snd st with
    | SetDefault value => Some value
    | _ => default_of trace
    end.
Proof. by destruct st as [t []]. Qed.

Lemma failure_of_cons (st : string * action) (trace : list (string * action)) :
  failure_of (st :: trace)
  = match snd st with
    | Fail err => Some err
    | _ => failure_of trace
    end.
Proof. by destruct st as [t []]. Qed.

Lemma steps_Skip (formatOptions : bool) (param : string) (rest : list string) :
  body formatOptions param (param :: rest) = Skip →
  steps (param :: rest) formatOptions = (param, Skip) :: steps rest formatOptions.
Proof. intros H. cbn [steps]. by rewrite H. Qed.

Lemma steps_Store (formatOptions : bool) (param : string) (rest : list string)
    (key value : string) (formatOptions' : bool) :
  body formatOptions param (param :: rest) = Store key value formatOptions' →
  steps (param :: rest) formatOptions
  = (param, Store key value formatOptions') :: steps rest formatOptions'.
Proof. intros H. cbn [steps]. by rewrite H. Qed.

Lemma steps_Fail (formatOptions : bool) (param : string) (rest : list string)
    (e : error) :
  body formatOptions param (param :: rest) = Fail e →
  steps (param :: rest) formatOptions = [(param, Fail e)].
Proof. intros H. cbn [steps]. by rewrite H. Qed.

(** A failing scan stops at a token without ['='] that it met in list mode;
    the iterations before it are those of a scan of the preceding tokens
    alone, which neither fails nor reaches the free-form branch, and nothing
    behind the offending token matters. *)
Lemma steps_fail (params : list string) (formatOptions : bool) (e : error) :
  failure_of (steps params formatOptions) = Some e →
  ∃ pre bad rest,
    params = pre ++ bad :: rest
    ∧ bad ≠ "" ∧ contains bad "="%char = false
    ∧ e = ErrInvalidFormatOption
    ∧ failure_of (steps pre formatOptions) = None
    ∧ default_of (steps pre formatOptions) = None
    ∧ ∀ rest', steps (pre ++ bad :: rest') formatOptions
               = steps pre formatOptions ++ [(bad, Fail ErrInvalidFormatOption)].
Proof.
  revert formatOptions.
  induction params as [|param rest IH]; intros fo; [done|].
  destruct (body_cases fo param) as [->|[(Hne & -> & H0)|(Hne & Hin)]].
  - rewrite steps_Skip, failure_of_cons by apply body_empty.
    cbn [snd]. intros Hf.
    destruct (IH fo Hf) as (pre & bad & rest0 & -> & ? & ? & ? & ? & ? & Hst).
    exists ("" :: pre), bad, rest0. repeat split; try done.
    intros rest'. cbn [app].
    rewrite !steps_Skip by apply body_empty. by rewrite Hst.
  - cbn [steps]. by rewrite body_free_form.
  - pose proof (body_list fo param) as Hb.
    destruct (cut param "="%char) as [[b a]|] eqn:Hc.
    + set (fo' := negb _) in *.
      rewrite (steps_Store fo param rest _ _ fo'), failure_of_cons by auto.
      cbn [snd]. intros Hf.
      destruct (IH fo' Hf) as (pre & bad & rest0 & -> & ? & ? & ? & ? & ? & Hst).
      exists (param :: pre), bad, rest0. repeat split; try done.
      * by rewrite (steps_Store fo param pre _ _ fo'), failure_of_cons by auto.
      * by rewrite (steps_Store fo param pre _ _ fo'), default_of_cons by auto.
      * intros rest'. cbn [app].
        rewrite !(steps_Store fo param _ _ _ fo') by auto. by rewrite Hst.
    + rewrite (steps_Fail fo param rest ErrInvalidFormatOption) by auto.
      intros [= <-]. exists [], param, rest. repeat split; try done.
      * by apply cut_None.
      * intros rest'. cbn [app].
        by rewrite (steps_Fail fo param rest' ErrInvalidFormatOption) by auto.
Qed.

Lemma pairs_of_snoc_Fail (trace : list (string * action)) (t : string) (e : error) :
  pairs_of (trace ++ [(t, Fail e)]) = pairs_of trace.
Proof. unfold pairs_of. rewrite omap_app. cbn. apply app_nil_r. Qed.

Lemma default_of_snoc_Fail (trace : list (string * action)) (t : string) (e : error) :
  default_of (trace ++ [(t, Fail e)]) = default_of trace.
Proof. unfold default_of. rewrite omap_app. cbn. by rewrite app_nil_r. Qed.

Lemma list_tokens_of_snoc_Fail (trace : list (string * action)) (t : string)
    (e : error) :
  list_tokens_of (trace ++ [(t, Fail e)]) = list_tokens_of trace ++ [t].
Proof. unfold list_tokens_of. by rewrite omap_app. Qed.

(** C8: when [ParseParams] fails, the map is the one a scan of the tokens
    before the offending token alone produces: every key scanned from them
    is present (with the last value scanned for it), the offending token is
    the last one handled, and the outcome does not depend on the tokens
    after it. *)
Theorem C8_no_rollback (opt : Option) (params : list string)
    (defaultKey : string) (e : error) :
  snd (ParseParams opt params defaultKey) = Some e →
  ∃ pre bad rest m,
    params = pre ++ bad :: rest
    ∧ bad ≠ "" ∧ contains bad "="%char = false
    ∧ Params (fst (ParseParams opt params defaultKey)) = Some m
    ∧ m = store_all (initParams opt) (storedPairs pre)
    ∧ ParseParams opt pre defaultKey
      = (fst (ParseParams opt params defaultKey), None)
    ∧ (∀ k v, (k, v) ∈ storedPairs pre →
              ∃ v', m !! k = Some v' ∧ (k, v') ∈ storedPairs pre)
    ∧ storedPairs params = storedPairs pre
    ∧ listTokens params = listTokens pre ++ [bad]
    ∧ ∀ rest', ParseParams opt (pre ++ bad :: rest') defaultKey
               = ParseParams opt params defaultKey.
Proof.
  unfold ParseParams at 1. rewrite scan_steps. cbn [snd]. intros Hf.
  destruct (steps_fail params false e Hf)
    as (pre & bad & rest & -> & Hne & Hno & -> & Hfp & Hdp & Hst).
  assert (∀ rest', ParseParams opt (pre ++ bad :: rest') defaultKey
                   = (set_Params opt
                        (store_all (initParams opt) (storedPairs pre)),
                      Some ErrInvalidFormatOption)) as Hall.
  { intros rest'. unfold ParseParams. rewrite scan_steps, Hst.
    unfold replay. rewrite pairs_of_snoc_Fail, default_of_snoc_Fail, Hdp.
    unfold failure_of. rewrite omap_app.
    unfold failure_of in Hfp. destruct (omap _ (steps pre false)); done. }
  exists pre, bad, rest, (store_all (initParams opt) (storedPairs pre)).
  rewrite !Hall. cbn [fst set_Params Params].
  repeat split; try done.
  - unfold ParseParams. rewrite scan_steps, Hfp. unfold replay.
    by rewrite Hdp.
  - intros k v. apply store_all_present.
  - unfold storedPairs. by rewrite Hst, pairs_of_snoc_Fail.
  - unfold listTokens. by rewrite Hst, list_tokens_of_snoc_Fail.
Qed.

Lemma C8_no_rollback_witness :
  ∃ pre bad rest m,
    ["(a=1"; "b=2"; "oops"; "c=3)"] = pre ++ bad :: rest
    ∧ bad ≠ "" ∧ contains bad "="%char = false
    ∧ Params (fst (ParseParams zeroOption ["(a=1"; "b=2"; "oops"; "c=3)"] "name"))
      = Some m
    ∧ m = store_all (initParams zeroOption) (storedPairs pre)
    ∧ ParseParams zeroOption pre "name"
      = (fst (ParseParams zeroOption ["(a=1"; "b=2"; "oops"; "c=3)"] "name"),
         None)
    ∧ (∀ k v, (k, v) ∈ storedPairs pre →
              ∃ v', m !! k = Some v' ∧ (k, v') ∈ storedPairs pre)
    ∧ storedPairs ["(a=1"; "b=2"; "oops"; "c=3)"] = storedPairs pre
    ∧ listTokens ["(a=1"; "b=2"; "oops"; "c=3)"] = listTokens pre ++ [bad]
    ∧ ∀ rest', ParseParams zeroOption (pre ++ bad :: rest') "name"
               = ParseParams zeroOption ["(a=1"; "b=2"; "oops"; "c=3)"] "name".
Proof.
  apply (C8_no_rollback zeroOption ["(a=1"; "b=2"; "oops"; "c=3)"] "name"
           ErrInvalidFormatOption).
  reflexivity.
Defined.

Example C8_sample :
  ParseParams zeroOption ["(a=1"; "b=2"; "oops"; "c=3)"] "name"
  = (set_Params zeroOption (<["b" := "2"]> (<["a" := "1"]> ∅)),
     Some ErrInvalidFormatOption).
Proof. reflexivity. Qed.

(** C10: [ParseParams] writes to the [Params] field only.  [Quit], [Exec],
    [Crosstab] and [Watch] are as before, whether the call fails or not;
    [Params] is never nil afterwards, and a nil [Params] is replaced by a
    fresh map that holds nothing but what the call stored (nothing at all
    for an empty token sequence); an entry present at entry is still there
    with its value unless its key is [defaultKey] or one of the scanned
    keys. *)
Theorem C10_frame (opt : Option) (params : list string) (defaultKey : string) :
  Quit (fst (ParseParams opt params defaultKey)) = Quit opt
  ∧ Exec (fst (ParseParams opt params defaultKey)) = Exec opt
  ∧ Crosstab (fst (ParseParams opt params defaultKey)) = Crosstab opt
  ∧ Watch (fst (ParseParams opt params defaultKey)) = Watch opt
  ∧ Params (fst (ParseParams opt params defaultKey))
    = Some (replay defaultKey (steps params false) (initParams opt))
  ∧ (Params opt = None →
     initParams opt = ∅
     ∧ ParseParams opt [] defaultKey = (set_Params opt ∅, None))
  ∧ (∀ m k v, Params opt = Some m → m !! k = Some v →
       k ∉ (storedPairs params).*1 → k ≠ defaultKey →
       initParams (fst (ParseParams opt params defaultKey)) !! k = Some v).
Proof.
  unfold ParseParams. rewrite scan_steps. cbn [fst set_Params].
  repeat split; try done.
  - unfold initParams. by rewrite H.
  - cbn. unfold initParams. by rewrite H.
  - intros m k v Hm Hk Hpairs Hdk. unfold initParams at 1.
    cbn [Params set_Params].
    unfold initParams. rewrite Hm. unfold replay.
    fold (storedPairs params).
    destruct (default_of _); [rewrite lookup_insert_ne by done|];
      by rewrite store_all_other.
Qed.

Lemma C10_frame_witness :
  initParams (fst (ParseParams (set_Params zeroOption {["x" := "y"]})
                     ["(a=1)"; "rest"] "name")) !! "x" = Some "y"
  ∧ ParseParams zeroOption [] "name" = (set_Params zeroOption ∅, None).
Proof.
  split.
  - apply (C10_frame (set_Params zeroOption {["x" := "y"]})
             ["(a=1)"; "rest"] "name") with (m := {["x" := "y"]}).
    + reflexivity.
    + reflexivity.
    + change ("x" ∉ ["a"]). intros H. apply list_elem_of_singleton in H.
      discriminate H.
    + discriminate.
  - apply (C10_frame zeroOption [] "name"). reflexivity.
Defined.

(** ** The claim about [GetOptional] *)

Section CursorFacts.

Context {UserT VarsT UnquoterT StmtParams : Type}.
Variable env_Unquote : UserT → bool → VarsT → UnquoterT.
Variable env_All : VarsT.
Variable stmt_Get :
  StmtParams → UnquoterT → (bool * string * option error) * StmtParams.

Abbreviation decode p exec :=
  (stmt_Get (Cursor.Params_ p)
     (env_Unquote (Cursor.User (Cursor.Handler_ p)) exec env_All)).
Abbreviation GetOptional := (Cursor.GetOptional env_Unquote env_All stmt_Get).

(** C9: when the decoder yields the value [v] without error, [GetOptional]
    returns [(true, v')] if [v] is a ['-'] followed by [v'] (one dash is
    removed, whatever follows it) and [(false, v)] if [v] is empty or
    starts with another character; when the decoder fails, [GetOptional]
    returns [(false, "")] and the decoder's error.  The cursor is left
    where the decoder left it. *)
Theorem C9_GetOptional (p : Cursor.Params) (exec : bool) (ok : bool)
    (v : string) (err : option error) (c : StmtParams) :
  decode p exec = ((ok, v, err), c) →
  snd (GetOptional p exec) = Cursor.set_cursor p c
  ∧ (err = None →
     (∀ v', v = String "-"%char v' →
            fst (GetOptional p exec) = (true, v', None))
     ∧ (at_index v 0 ≠ Some "-"%char →
        fst (GetOptional p exec) = (false, v, None))
     ∧ (v = "-verbose" → fst (GetOptional p exec) = (true, "verbose", None))
     ∧ (v = "verbose" → fst (GetOptional p exec) = (false, "verbose", None))
     ∧ (v = "--verbose" →
        fst (GetOptional p exec) = (true, "-verbose", None)))
  ∧ (∀ e, err = Some e → fst (GetOptional p exec) = (false, "", Some e)).
Proof.
  intros Hd.
  assert (∀ v', v = String "-"%char v' → err = None →
                fst (GetOptional p exec) = (true, v', None)) as Hflag.
  { intros v' -> ->. unfold Cursor.GetOptional, Cursor.Get. rewrite Hd.
    cbn. by rewrite Nat.sub_0_r, substring_all. }
  assert (at_index v 0 ≠ Some "-"%char → err = None →
          fst (GetOptional p exec) = (false, v, None)) as Hplain.
  { intros H0 ->. unfold Cursor.GetOptional, Cursor.Get. rewrite Hd.
    rewrite bool_decide_eq_false_2 by done. by rewrite andb_false_r. }
  split; [|split].
  - unfold Cursor.GetOptional, Cursor.Get. rewrite Hd.
    destruct err; [done|]. by destruct (_ && _).
  - intros Herr. repeat split.
    + intros v' Hv. by apply Hflag.
    + intros H0. by apply Hplain.
    + intros Hv. by apply Hflag.
    + intros ->. by apply Hplain.
    + intros Hv. by apply Hflag.
  - intros e ->. unfold Cursor.GetOptional, Cursor.Get. by rewrite Hd.
Qed.

End CursorFacts.

Lemma C9_GetOptional_witness :
  fst (listGetOptional ["-verbose"; "x"] true) = (true, "verbose", None)
  ∧ fst (listGetOptional ["verbose"] true) = (false, "verbose", None)
  ∧ fst (listGetOptional ["--verbose"] false) = (true, "-verbose", None)
  ∧ fst (listGetOptional [] false) = (false, "", None)
  ∧ fst (listGetOptional ["'"] false)
    = (false, "", Some (ErrOther "unterminated quoted string")).
Proof.
  split; [|split; [|split; [|split]]].
  - apply (C9_GetOptional (λ _ _ _, tt) tt listCursorGet
             (listCursor ["-verbose"; "x"]) true true "-verbose" None ["x"]);
      reflexivity.
  - apply (C9_GetOptional (λ _ _ _, tt) tt listCursorGet
             (listCursor ["verbose"]) true true "verbose" None []);
      reflexivity.
  - apply (C9_GetOptional (λ _ _ _, tt) tt listCursorGet
             (listCursor ["--verbose"]) false true "--verbose" None []);
      reflexivity.
  - apply (C9_GetOptional (λ _ _ _, tt) tt listCursorGet
             (listCursor []) false false "" None []);
      [reflexivity|reflexivity|discriminate].
  - apply (C9_GetOptional (λ _ _ _, tt) tt listCursorGet
             (listCursor ["'"]) false false ""
             (Some (ErrOther "unterminated quoted string")) []);
      reflexivity.
Defined.

(** * Further properties of the scanner *)

(** ** Empty tokens *)

(** A token sequence without any non-empty token (the empty sequence
    included) only makes sure that [Params] is a map: nothing is stored and
    no error is returned. *)
Theorem ParseParams_all_empty (opt : Option) (params : list string)
    (defaultKey : string) :
  Forall (λ s, s = "") params →
  ParseParams opt params defaultKey = (set_Params opt (initParams opt), None)
  ∧ storedPairs params = [] ∧ defaultValue params = None.
Proof.
  intros Hall. unfold ParseParams, storedPairs, defaultValue.
  rewrite <- (app_nil_r params).
  rewrite scan_skip_empty by done.
  destruct (steps_skip_empty params [] false Hall) as (-> & _ & ->). done.
Qed.

Lemma ParseParams_all_empty_witness :
  ParseParams zeroOption [""; ""] "name" = (set_Params zeroOption ∅, None)
  ∧ storedPairs [""; ""] = [] ∧ defaultValue [""; ""] = None.
Proof.
  apply (ParseParams_all_empty zeroOption [""; ""] "name").
  repeat constructor.
Defined.

(** In list mode the loop body does not look at the tokens that follow. *)
Lemma body_list_tail (formatOptions : bool) (param : string)
    (tail tail' : list string) :
  param ≠ "" → formatOptions = true ∨ at_index param 0 = Some "("%char →
  body formatOptions param tail = body formatOptions param tail'.
Proof. intros Hne Hin. by rewrite !body_list. Qed.

(** As long as the free-form branch is not taken, empty tokens make no
    difference. *)
Lemma scan_nonEmpty (defaultKey : string) (params : list string)
    (formatOptions : bool) (m : gmap string string) :
  default_of (steps params formatOptions) = None →
  scan defaultKey (nonEmpty params) formatOptions m
  = scan defaultKey params formatOptions m.
Proof.
  revert formatOptions m.
  induction params as [|param rest IH]; intros fo m; [done|].
  destruct (body_cases fo param) as [->|[(Hne & -> & H0)|(Hne & Hin)]].
  - rewrite steps_Skip, default_of_cons by apply body_empty. cbn [snd].
    intros Hd. unfold nonEmpty. rewrite filter_cons_False by (intros H; done).
    cbn [scan]. rewrite body_empty. by apply IH.
  - cbn [steps]. rewrite body_free_form by done. done.
  - unfold nonEmpty. rewrite filter_cons_True by done. fold (nonEmpty rest).
    pose proof (body_list fo param) as Hb.
    cbn [scan]. rewrite !Hb by done.
    destruct (cut param "="%char) as [[b a]|] eqn:Hc; [|done].
    set (fo' := negb _) in *.
    rewrite (steps_Store fo param rest _ _ fo'), default_of_cons by auto.
    cbn [snd]. intros Hd. by apply IH.
Qed.

(** Removing the empty tokens from a token sequence that does not reach the
    free-form branch changes neither the resulting map nor the error. *)
Theorem ParseParams_nonEmpty (opt : Option) (params : list string)
    (defaultKey : string) :
  defaultValue params = None →
  ParseParams opt (nonEmpty params) defaultKey
  = ParseParams opt params defaultKey.
Proof.
  intros Hd. unfold ParseParams. by rewrite scan_nonEmpty.
Qed.

Lemma ParseParams_nonEmpty_witness :
  ParseParams zeroOption (nonEmpty [""; "(a=1"; ""; "b=2)"; ""]) "name"
  = ParseParams zeroOption [""; "(a=1"; ""; "b=2)"; ""] "name".
Proof.
  apply (ParseParams_nonEmpty zeroOption [""; "(a=1"; ""; "b=2)"; ""] "name").
  reflexivity.
Defined.

(** ** The keys of the map *)

#[local] Set Warnings "-clear-no-such-hyp".

Lemma dom_store_all (m : gmap string string) (kvs : list (string * string)) :
  dom (store_all m kvs) = dom m ∪ list_to_set kvs.*1.
Proof.
  revert m. induction kvs as [|[k v] kvs IH]; intros m.
  { cbn. set_solver. }
  change (store_all m ((k, v) :: kvs)) with (store_all (<[k := v]> m) kvs).
  rewrite IH, dom_insert_L. cbn. set_solver.
Qed.

(** After the call the keys of [Params] are those present at entry, the keys
    scanned from parenthesized lists, and [defaultKey] if the free-form
    branch was taken; in particular no key is ever removed. *)
Theorem ParseParams_dom (opt : Option) (params : list string)
    (defaultKey : string) :
  dom (initParams (fst (ParseParams opt params defaultKey)))
  = dom (initParams opt) ∪ list_to_set (storedPairs params).*1
    ∪ match defaultValue params with
      | Some _ => {[defaultKey]}
      | None => ∅
      end
  ∧ dom (initParams opt)
    ⊆ dom (initParams (fst (ParseParams opt params defaultKey))).
Proof.
  assert (dom (initParams (fst (ParseParams opt params defaultKey)))
          = dom (initParams opt) ∪ list_to_set (storedPairs params).*1
            ∪ match defaultValue params with
              | Some _ => {[defaultKey]}
              | None => ∅
              end) as H.
  { unfold ParseParams. rewrite scan_steps. cbn [fst].
    unfold initParams at 1. cbn [set_Params Params]. unfold replay.
    fold (storedPairs params). fold (defaultValue params).
    destruct (defaultValue params).
    - rewrite dom_insert_L, dom_store_all. set_solver.
    - rewrite dom_store_all. set_solver. }
  split; [exact H|]. rewrite H. set_solver.
Qed.

(** ** The shape of the stored pairs *)

Lemma contains_TrimLeft (s cutset : string) (c : ascii) :
  contains s c = false → contains (TrimLeft s cutset) c = false.
Proof.
  induction s as [|d s IH]; [done|].
  cbn [TrimLeft]. destruct (in_cutset d cutset); [|done].
  cbn [contains]. intros H. apply orb_false_iff in H as [_ H]. by apply IH.
Qed.

Lemma pairs_of_steps_shape (params : list string) (formatOptions : bool)
    (k v : string) :
  (k, v) ∈ pairs_of (steps params formatOptions) →
  contains k "="%char = false
  ∧ at_index k 0 ≠ Some "("%char
  ∧ (v = "" ∨ at_index v (len v - 1) ≠ Some ")"%char).
Proof.
  revert formatOptions.
  induction params as [|param rest IH]; intros fo.
  { intros H. by apply elem_of_nil in H. }
  destruct (body_cases fo param) as [->|[(Hne & -> & H0)|(Hne & Hin)]].
  - rewrite steps_Skip, pairs_of_cons by apply body_empty. apply IH.
  - cbn [steps]. rewrite body_free_form by done.
    intros H. by apply elem_of_nil in H.
  - pose proof (body_list fo param) as Hb.
    destruct (cut param "="%char) as [[b a]|] eqn:Hc.
    + set (fo' := negb _) in *.
      rewrite (steps_Store fo param rest _ _ fo'), pairs_of_cons by auto.
      cbn [snd app]. intros H. apply elem_of_cons in H as [[= -> ->]|H].
      * apply cut_Some in Hc as [_ Hb0]. split; [|split].
        -- by apply contains_TrimLeft.
        -- by destruct (TrimLeft_run b "("%char) as (n & _ & ?).
        -- by destruct (TrimRight_run a ")"%char) as (n & _ & ?).
      * by apply (IH fo').
    + rewrite (steps_Fail fo param rest ErrInvalidFormatOption) by auto.
      intros H. by apply elem_of_nil in H.
Qed.

(** Every key scanned from a parenthesized list is free of ['='] and does
    not begin with an opening parenthesis, and every scanned value is empty
    or does not end with a closing parenthesis. *)
Theorem storedPairs_shape (params : list string) (k v : string) :
  (k, v) ∈ storedPairs params →
  contains k "="%char = false
  ∧ at_index k 0 ≠ Some "("%char
  ∧ (v = "" ∨ at_index v (len v - 1) ≠ Some ")"%char).
Proof. apply pairs_of_steps_shape. Qed.

Lemma storedPairs_shape_witness :
  contains "a" "="%char = false
  ∧ at_index "a" 0 ≠ Some "("%char
  ∧ ("b=c" = "" ∨ at_index "b=c" (len "b=c" - 1) ≠ Some ")"%char).
Proof.
  apply (storedPairs_shape ["((a=b=c))"] "a" "b=c").
  change (("a", "b=c") ∈ [("a", "b=c")]).
  apply list_elem_of_singleton. reflexivity.
Defined.

(** ** When the call succeeds *)

(** Only non-empty tokens of the input are handled in list mode. *)
Lemma list_tokens_of_steps (params : list string) (formatOptions : bool)
    (t : string) :
  t ∈ list_tokens_of (steps params formatOptions) → t ∈ params ∧ t ≠ "".
Proof.
  revert formatOptions.
  induction params as [|param rest IH]; intros fo.
  { intros H. by apply elem_of_nil in H. }
  destruct (body_cases fo param) as [->|[(Hne & -> & H0)|(Hne & Hin)]].
  - rewrite steps_Skip, list_tokens_of_cons by apply body_empty.
    cbn [snd app]. intros H. destruct (IH fo H). split; [|done].
    apply elem_of_cons. by right.
  - cbn [steps]. rewrite body_free_form by done.
    intros H. by apply elem_of_nil in H.
  - pose proof (body_list fo param) as Hb.
    destruct (cut param "="%char) as [[b a]|] eqn:Hc.
    + set (fo' := negb _) in *.
      rewrite (steps_Store fo param rest _ _ fo'), list_tokens_of_cons by auto.
      cbn [snd fst app]. intros H. apply elem_of_cons in H as [->|H].
      * split; [|done]. apply elem_of_cons. by left.
      * destruct (IH fo' H). split; [|done]. apply elem_of_cons. by right.
    + rewrite (steps_Fail fo param rest ErrInvalidFormatOption) by auto.
      rewrite list_tokens_of_cons. cbn [snd fst app].
      intros H. apply list_elem_of_singleton in H as ->.
      split; [|done]. apply elem_of_cons. by left.
Qed.

(** If every non-empty token contains a ['='], the call cannot fail,
    whatever the parentheses are. *)
Theorem ParseParams_no_error (opt : Option) (params : list string)
    (defaultKey : string) :
  Forall (λ t, t = "" ∨ contains t "="%char = true) params →
  snd (ParseParams opt params defaultKey) = None.
Proof.
  intros Hall. unfold ParseParams. rewrite scan_steps. cbn [snd].
  destruct (failure_steps params false) as [[Hf _]|[_ (t & Ht & Hno)]];
    [done|].
  apply list_tokens_of_steps in Ht as [Ht Hne].
  rewrite Forall_forall in Hall. destruct (Hall t Ht); congruence.
Qed.

Lemma ParseParams_no_error_witness :
  snd (ParseParams zeroOption ["(a=1"; ""; "b=2))"; "(c=3"] "name") = None.
Proof.
  apply (ParseParams_no_error zeroOption ["(a=1"; ""; "b=2))"; "(c=3"] "name").
  repeat (apply List.Forall_cons;
          [first [left; reflexivity | right; reflexivity]|]).
  apply List.Forall_nil.
Defined.

(** ** Calling twice *)

(** What a run of stores leaves under a key: either the key is not named and
    keeps its entry, or it holds a value that does not depend on the map the
    stores started from. *)
Lemma store_all_lookup (kvs : list (string * string)) (k : string) :
  ((k ∉ kvs.*1) ∧ ∀ m, store_all m kvs !! k = m !! k)
  ∨ (∃ v, ∀ m, store_all m kvs !! k = Some v).
Proof.
  induction kvs as [|[k0 v0] kvs IH] using rev_ind.
  { left. split; [apply not_elem_of_nil|done]. }
  destruct (decide (k = k0)) as [->|Hne].
  - right. exists v0. intros m. rewrite store_all_app. cbn.
    by rewrite lookup_insert_eq.
  - destruct IH as [[Hk Hm]|[v Hv]].
    + left. split.
      * rewrite fmap_app. cbn. intros H.
        apply elem_of_app in H as [H|H]; [done|].
        by apply list_elem_of_singleton in H.
      * intros m. rewrite store_all_app. cbn.
        by rewrite lookup_insert_ne.
    + right. exists v. intros m. rewrite store_all_app. cbn.
      by rewrite lookup_insert_ne.
Qed.

Lemma replay_idempotent (defaultKey : string) (trace : list (string * action))
    (m : gmap string string) :
  replay defaultKey trace (replay defaultKey trace m)
  = replay defaultKey trace m.
Proof.
  unfold replay. apply map_eq. intros k.
  destruct (store_all_lookup (pairs_of trace) k) as [[_ Hm]|[v Hv]];
    destruct (default_of trace) as [d|].
  - destruct (decide (defaultKey = k)) as [->|Hne].
    + by rewrite !lookup_insert_eq.
    + rewrite !lookup_insert_ne by done. rewrite !Hm.
      by rewrite lookup_insert_ne.
  - by rewrite !Hm.
  - destruct (decide (defaultKey = k)) as [->|Hne].
    + by rewrite !lookup_insert_eq.
    + rewrite !lookup_insert_ne by done. by rewrite !Hv.
  - by rewrite !Hv.
Qed.

Lemma initParams_set (opt : Option) (m : gmap string string) :
  initParams (set_Params opt m) = m.
Proof. reflexivity. Qed.

(** Parsing the same tokens a second time into the [Option] the first call
    left changes nothing: the second call returns the same map and the same
    error. *)
Theorem ParseParams_idempotent (opt : Option) (params : list string)
    (defaultKey : string) :
  ParseParams (fst (ParseParams opt params defaultKey)) params defaultKey
  = ParseParams opt params defaultKey.
Proof.
  unfold ParseParams. rewrite !scan_steps. cbn [fst].
  rewrite initParams_set, replay_idempotent. reflexivity.
Qed.

(** ** Splitting the token sequence *)

(** A trace that neither fails nor reaches the free-form branch has run
    through all its tokens, so a scan of more tokens goes on from the state
    it ended in. *)
Lemma steps_app (xs ys : list string) (formatOptions : bool) :
  failure_of (steps xs formatOptions) = None →
  default_of (steps xs formatOptions) = None →
  steps (xs ++ ys) formatOptions
  = steps xs formatOptions
    ++ steps ys (end_mode (steps xs formatOptions) formatOptions).
Proof.
  revert formatOptions.
  induction xs as [|param rest IH]; intros fo; [done|].
  destruct (body_cases fo param) as [->|[(Hne & -> & H0)|(Hne & Hin)]].
  - cbn [app]. rewrite !steps_Skip by apply body_empty.
    rewrite failure_of_cons, default_of_cons. cbn [snd]. intros Hf Hd.
    rewrite IH by done. reflexivity.
  - cbn [steps]. rewrite body_free_form by done. done.
  - pose proof (body_list fo param) as Hb.
    destruct (cut param "="%char) as [[b a]|] eqn:Hc.
    + set (fo' := negb _) in *. cbn [app].
      rewrite !(steps_Store fo param _ _ _ fo') by auto.
      rewrite failure_of_cons, default_of_cons. cbn [snd]. intros Hf Hd.
      rewrite IH by done. reflexivity.
    + rewrite (steps_Fail fo param rest ErrInvalidFormatOption) by auto.
      done.
Qed.

Lemma pairs_of_app (tr tr' : list (string * action)) :
  pairs_of (tr ++ tr') = pairs_of tr ++ pairs_of tr'.
Proof. apply omap_app. Qed.

Lemma head_app_nil {A : Type} (l l' : list A) :
  head l = None → head (l ++ l') = head l'.
Proof. by destruct l. Qed.

(** When a call on [xs] succeeds without taking the free-form branch and
    ends outside a list, one call on [xs ++ ys] does what a call on [xs]
    followed by a call on [ys] does, and stores the pairs of both. *)
Theorem ParseParams_app (opt : Option) (xs ys : list string)
    (defaultKey : string) :
  snd (ParseParams opt xs defaultKey) = None →
  defaultValue xs = None →
  modeAfter xs = false →
  ParseParams opt (xs ++ ys) defaultKey
  = ParseParams (fst (ParseParams opt xs defaultKey)) ys defaultKey
  ∧ storedPairs (xs ++ ys) = storedPairs xs ++ storedPairs ys.
Proof.
  unfold ParseParams at 1. rewrite scan_steps. cbn [snd].
  unfold defaultValue, modeAfter. intros Hf Hd Hmode.
  pose proof (steps_app xs ys false Hf Hd) as Happ. rewrite Hmode in Happ.
  split.
  - unfold ParseParams. rewrite !scan_steps. cbn [fst].
    rewrite initParams_set.
    rewrite Happ. unfold replay, failure_of, default_of in *.
    rewrite pairs_of_app, !omap_app, store_all_app.
    rewrite !head_app_nil by done. rewrite Hd. reflexivity.
  - unfold storedPairs. by rewrite Happ, pairs_of_app.
Qed.

Lemma ParseParams_app_witness :
  ParseParams zeroOption (["(a=1"; "b=2)"] ++ ["x"; "(c=3)"]) "name"
  = ParseParams (fst (ParseParams zeroOption ["(a=1"; "b=2)"] "name"))
      ["x"; "(c=3)"] "name"
  ∧ storedPairs (["(a=1"; "b=2)"] ++ ["x"; "(c=3)"])
    = storedPairs ["(a=1"; "b=2)"] ++ storedPairs ["x"; "(c=3)"].
Proof.
  apply (ParseParams_app zeroOption ["(a=1"; "b=2)"] ["x"; "(c=3)"] "name");
    reflexivity.
Defined.

(** ** Where the free-form value comes from *)

Lemma end_mode_cons (st : string * action) (trace : list (string * action))
    (formatOptions : bool) :
  end_mode (st :: trace) formatOptions
  = end_mode trace match snd st with
                   | Store _ _ formatOptions' => formatOptions'
                   | _ => formatOptions
                   end.
Proof. reflexivity. Qed.

(** The free-form branch is taken at a non-empty token without a leading
    parenthesis that is met outside a list; the tokens before it were all
    consumed without failure. *)
Lemma steps_default (params : list string) (formatOptions : bool) (v : string) :
  default_of (steps params formatOptions) = Some v →
  ∃ pre t rest,
    params = pre ++ t :: rest
    ∧ t ≠ "" ∧ at_index t 0 ≠ Some "("%char
    ∧ v = Join (t :: rest) " "
    ∧ failure_of (steps pre formatOptions) = None
    ∧ default_of (steps pre formatOptions) = None
    ∧ end_mode (steps pre formatOptions) formatOptions = false.
Proof.
  revert formatOptions.
  induction params as [|param rest IH]; intros fo; [done|].
  destruct (body_cases fo param) as [->|[(Hne & -> & H0)|(Hne & Hin)]].
  - rewrite steps_Skip, default_of_cons by apply body_empty.
    cbn [snd]. intros Hd.
    destruct (IH fo Hd) as (pre & t & rest0 & -> & ? & ? & ? & Hf & Hdp & He).
    exists ("" :: pre), t, rest0.
    rewrite steps_Skip, failure_of_cons, default_of_cons, end_mode_cons
      by apply body_empty.
    done.
  - cbn [steps]. rewrite body_free_form by done. intros [= <-].
    by exists [], param, rest.
  - pose proof (body_list fo param) as Hb.
    destruct (cut param "="%char) as [[b a]|] eqn:Hc.
    + set (fo' := negb _) in *.
      rewrite (steps_Store fo param rest _ _ fo'), default_of_cons by auto.
      cbn [snd]. intros Hd.
      destruct (IH fo' Hd) as (pre & t & rest0 & -> & ? & ? & ? & Hf & Hdp & He).
      exists (param :: pre), t, rest0.
      rewrite (steps_Store fo param pre _ _ fo'), failure_of_cons,
        default_of_cons, end_mode_cons by auto.
      done.
    + by rewrite (steps_Fail fo param rest ErrInvalidFormatOption) by auto.
Qed.

(** When a call sets the default key it returns no error, and the value is a
    token [t] and everything after it joined with single spaces, where [t] is
    non-empty, has no leading parenthesis and follows tokens that were
    scanned successfully and ended outside a list; the result is what a call
    on those preceding tokens leaves, with the default key written on top,
    and nothing from [t] on is split into pairs. *)
Theorem ParseParams_default (opt : Option) (params : list string)
    (defaultKey v : string) :
  defaultValue params = Some v →
  ∃ pre t rest,
    params = pre ++ t :: rest
    ∧ t ≠ "" ∧ at_index t 0 ≠ Some "("%char
    ∧ v = Join (t :: rest) " "
    ∧ snd (ParseParams opt pre defaultKey) = None
    ∧ defaultValue pre = None
    ∧ modeAfter pre = false
    ∧ storedPairs params = storedPairs pre
    ∧ ParseParams opt params defaultKey
      = (set_Params opt
           (<[defaultKey := v]>
              (initParams (fst (ParseParams opt pre defaultKey)))),
         None).
Proof.
  unfold defaultValue. intros Hd.
  destruct (steps_default params false v Hd)
    as (pre & t & rest & -> & Hne & H0 & -> & Hf & Hdp & He).
  exists pre, t, rest.
  assert (steps (pre ++ t :: rest) false
          = steps pre false ++ [(t, SetDefault (Join (t :: rest) " "))]) as Hst.
  { rewrite steps_app, He by done. cbn [steps]. by rewrite body_free_form. }
  assert (ParseParams opt pre defaultKey
          = (set_Params opt (store_all (initParams opt) (storedPairs pre)),
             None)) as Hpre.
  { unfold ParseParams. rewrite scan_steps, Hf. unfold replay.
    by rewrite Hdp. }
  assert (pairs_of (steps (pre ++ t :: rest) false) = storedPairs pre) as Hp.
  { rewrite Hst, pairs_of_app. cbn. apply app_nil_r. }
  rewrite Hpre. cbn [fst snd]. rewrite initParams_set.
  repeat split; try done.
  unfold ParseParams. rewrite scan_steps. unfold replay.
  rewrite Hp, Hd. f_equal.
  unfold failure_of in *. rewrite Hst, omap_app.
  by rewrite head_app_nil.
Qed.

Lemma ParseParams_default_witness :
  ∃ pre t rest,
    ["(a=1)"; ""; "x"; "(b=2)"] = pre ++ t :: rest
    ∧ t ≠ "" ∧ at_index t 0 ≠ Some "("%char
    ∧ "x (b=2)" = Join (t :: rest) " "
    ∧ snd (ParseParams zeroOption pre "name") = None
    ∧ defaultValue pre = None
    ∧ modeAfter pre = false
    ∧ storedPairs ["(a=1)"; ""; "x"; "(b=2)"] = storedPairs pre
    ∧ ParseParams zeroOption ["(a=1)"; ""; "x"; "(b=2)"] "name"
      = (set_Params zeroOption
           (<["name" := "x (b=2)"]>
              (initParams (fst (ParseParams zeroOption pre "name")))),
         None).
Proof.
  apply (ParseParams_default zeroOption ["(a=1)"; ""; "x"; "(b=2)"] "name"
           "x (b=2)").
  reflexivity.
Defined.

(** ** More about the parameter cursor *)

Section CursorReads.

Context {UserT VarsT UnquoterT StmtParams : Type}.
Variable env_Unquote : UserT → bool → VarsT → UnquoterT.
Variable env_All : VarsT.
Variable stmt_Get :
  StmtParams → UnquoterT → (bool * string * option error) * StmtParams.

Abbreviation decoded p exec :=
  (stmt_Get (Cursor.Params_ p)
     (env_Unquote (Cursor.User (Cursor.Handler_ p)) exec env_All)).
Abbreviation Get' := (Cursor.Get env_Unquote env_All stmt_Get).
Abbreviation GetOK' := (Cursor.GetOK env_Unquote env_All stmt_Get).
Abbreviation GetOptional' := (Cursor.GetOptional env_Unquote env_All stmt_Get).

(** The flag and the value returned by [GetOptional] determine the decoded
    value: putting the dash back in front of a flagged value gives it back,
    an unflagged value is the decoded value itself and does not start with
    a dash, and exactly one byte is dropped when the flag is set. *)
Theorem GetOptional_restore (p : Cursor.Params) (exec : bool) (ok : bool)
    (v : string) (c : StmtParams) :
  decoded p exec = ((ok, v, None), c) →
  ∃ flag value,
    fst (GetOptional' p exec) = (flag, value, None)
    ∧ (if flag then String "-"%char value else value) = v
    ∧ (flag = false → at_index value 0 ≠ Some "-"%char)
    ∧ len v = len value + (if flag then 1 else 0).
Proof.
  intros Hd. unfold Cursor.GetOptional, Cursor.Get. rewrite Hd.
  destruct v as [|ch v'].
  { exists false, "". repeat split; try done. }
  destruct (decide (ch = "-"%char)) as [->|Hch].
  - exists true, v'. cbn. rewrite Nat.sub_0_r, substring_all.
    repeat split; try done. unfold len. cbn. lia.
  - exists false, (String ch v'). cbn [fst].
    rewrite bool_decide_eq_false_2 by (cbn; congruence).
    rewrite andb_false_r. split; [done|]. split; [done|]. split.
    + intros _. cbn. congruence.
    + unfold len. cbn. lia.
Qed.

(** [Get], [GetOK] and [GetOptional] read the same parameter: each leaves
    the cursor where [GetOK] leaves it and returns the error [GetOK]
    returns; [Get] returns [GetOK]'s value, or the empty string on error. *)
Theorem Get_GetOK_agree (p : Cursor.Params) (exec : bool) :
  snd (Get' p exec) = snd (GetOK' p exec)
  ∧ snd (GetOptional' p exec) = snd (GetOK' p exec)
  ∧ snd (fst (Get' p exec)) = snd (fst (GetOK' p exec))
  ∧ snd (fst (GetOptional' p exec)) = snd (fst (GetOK' p exec))
  ∧ fst (fst (Get' p exec))
    = match snd (fst (GetOK' p exec)) with
      | None => snd (fst (fst (GetOK' p exec)))
      | Some _ => ""
      end.
Proof.
  unfold Cursor.GetOptional, Cursor.Get, Cursor.GetOK.
  destruct (decoded p exec) as [[[ok v] [e|]] c]; cbn; [done|].
  by destruct (_ && _).
Qed.

End CursorReads.

Lemma GetOptional_restore_witness :
  ∃ flag value,
    fst (listGetOptional ["--all"; "x"] true) = (flag, value, None)
    ∧ (if flag then String "-"%char value else value) = "--all"
    ∧ (flag = false → at_index value 0 ≠ Some "-"%char)
    ∧ len "--all" = len value + (if flag then 1 else 0).
Proof.
  apply (GetOptional_restore (λ _ _ _, tt) tt listCursorGet
           (listCursor ["--all"; "x"]) true true "--all" ["x"]).
  reflexivity.
Defined.

(** ** What the outcome depends on *)

(** Whether the call fails, and with which error, is decided by the tokens
    alone: neither the [Option] it is called on nor the default key has any
    influence.  The default key matters only for the entry it names: calls
    that differ in the default key alone leave the same value under every
    other key. *)
Theorem ParseParams_error_tokens_only (opt opt' : Option)
    (params : list string) (defaultKey defaultKey' : string) :
  snd (ParseParams opt params defaultKey)
  = snd (ParseParams opt' params defaultKey')
  ∧ ∀ k, k ≠ defaultKey → k ≠ defaultKey' →
         initParams (fst (ParseParams opt params defaultKey)) !! k
         = initParams (fst (ParseParams opt params defaultKey')) !! k.
Proof.
  unfold ParseParams. rewrite !scan_steps. cbn [fst snd].
  rewrite !initParams_set. split; [done|].
  intros k Hk Hk'. unfold replay.
  destruct (default_of (steps params false)) as [d|]; [|done].
  by rewrite !lookup_insert_ne.
Qed.

Lemma ParseParams_error_tokens_only_witness :
  initParams (fst (ParseParams zeroOption ["(a=1)"; "x"] "name")) !! "a"
  = initParams (fst (ParseParams zeroOption ["(a=1)"; "x"] "pipe")) !! "a".
Proof.
  apply (ParseParams_error_tokens_only zeroOption zeroOption
           ["(a=1)"; "x"] "name" "pipe"); discriminate.
Defined.
